(** * StegoPic-LSB: the LSB codec of [steg.py]

    A shallow embedding of [to_binary], [hide_data] and [extract_data].

    Data model.
    - A message is a Python [str]: a sequence of code points, here [list N]
      ([ord] of a character is its element).
    - A binary string is a Python [str] made of the characters ['0'] and
      ['1']; here [list ascii], so that [format], [int], [bin], slicing and
      the [in] test keep their string meaning.
    - A pixel is an [(R, G, B)] tuple of ints, here [Z * Z * Z]; an image is
      its size and the row-major pixel sequence that [getdata] returns.
    - File access ([load_image], [save]) is outside the model: an image is
      handed over as a value and the stego image is returned as a value.
    - A Python exception is [None] in the [option] monad.  [hide_data]
      reports its outcome as a [result]; what [extract_data] prints is
      collected in a log next to the value it returns. *)

From Stdlib Require Import ZArith NArith Ascii String Lia.
From stdpp Require Import base option list strings.

Local Open Scope char_scope.
Local Open Scope nat_scope.

(** ** Text and binary strings *)

Module Codec.

(** [STOP_SIGNAL = "#####END#####"], as code points. *)
Definition STOP_SIGNAL : list N :=
  map N_of_ascii (list_ascii_of_string "#####END#####").

(** Binary digits of a positive number, most significant first. *)
Fixpoint pos_digits (p : positive) : list ascii :=
  match p with
  | xH => ["1"]
  | xO q => pos_digits q ++ ["0"]
  | xI q => pos_digits q ++ ["1"]
  end.

(** [format(n, "b")] for [n >= 0]. *)
Definition bin_digits (n : N) : list ascii :=
  match n with
  | N0 => ["0"]
  | Npos p => pos_digits p
  end.

(** [format(n, "08b")] for [n >= 0]: the binary digits, padded with
    zeros on the left up to a MINIMUM width of 8. *)
Definition format_08b (n : N) : list ascii :=
  let d := bin_digits n in
  replicate (8 - length d) "0" ++ d.

(** [to_binary(data)] for [data] a [str]:
    [''.join([format(ord(i), "08b") for i in data])]. *)
Definition to_binary (data : list N) : list ascii :=
  concat (map format_08b data).

(** [int(c)] for a one-character string [c]: a decimal digit, or
    [ValueError]. *)
Definition int_char (c : ascii) : option Z :=
  let n := nat_of_ascii c in
  if (48 <=? n) && (n <=? 57) then Some (Z.of_nat (n - 48)) else None.

(** One digit of [int(s, 2)]. *)
Definition digit2 (c : ascii) : option N :=
  if Ascii.eqb c "0" then Some 0%N
  else if Ascii.eqb c "1" then Some 1%N
  else None.

(** [int(s, 2)] on a string of binary digits; [ValueError] on the empty
    string and on any other character.  (Python also accepts a sign, a
    [0b] prefix, underscores and blanks; none of them is a binary digit.) *)
Definition int_base2 (s : list ascii) : option N :=
  match s with
  | [] => None
  | _ => foldl (fun acc c => a ← acc; d ← digit2 c; Some (2 * a + d)%N)
               (Some 0%N) s
  end.

(** [chr(n)]: [ValueError] outside the code point range. *)
Definition chr (n : N) : option N :=
  if (n <=? 1114111)%N then Some n else None.

(** [bin(z)]: sign, ["0b"], binary digits of the magnitude. *)
Definition bin (z : Z) : list ascii :=
  (if (z <? 0)%Z then ["-"] else []) ++ ["0"; "b"] ++ bin_digits (Z.abs_N z).

(** [bin(z)[-1]]; [bin(z)] is never empty. *)
Definition bin_last (z : Z) : ascii := List.last (bin z) "0".

(** [pat in s] on strings: [pat] occurs as a contiguous substring. *)
Fixpoint starts_with (pat s : list ascii) : bool :=
  match pat, s with
  | [], _ => true
  | _ :: _, [] => false
  | p :: pat', c :: s' => Ascii.eqb p c && starts_with pat' s'
  end.

Fixpoint str_in (pat s : list ascii) : bool :=
  starts_with pat s ||
  match s with
  | [] => false
  | _ :: s' => str_in pat s'
  end.

(** [range(0, stop, step)] as a list. *)
Definition range_step (stop step : nat) : list nat :=
  map (fun j => j * step) (seq 0 ((stop + step - 1) / step)).

End Codec.

(** ** Images *)

Definition pixel : Type := Z * Z * Z.

Record image : Type := Image {
  width : nat;
  height : nat;
  getdata : list pixel
}.

(** What [load_image] hands over: an RGB image with 8-bit channels and
    one pixel per position. *)
Definition chan_ok (c : Z) : Prop := (0 <= c <= 255)%Z.

Definition pixel_ok (p : pixel) : Prop :=
  let '(r, g, b) := p in chan_ok r /\ chan_ok g /\ chan_ok b.

Record image_ok (img : image) : Prop := {
  size_ok : length (getdata img) = width img * height img;
  pixels_ok : Forall pixel_ok (getdata img)
}.

(** The channels of a pixel sequence in scan order: row-major pixels,
    R then G then B. *)
Definition channels (ps : list pixel) : list Z :=
  flat_map (fun p : pixel => let '(r, g, b) := p in [r; g; b]) ps.

(** ** Embedding: [hide_data] *)

Module Hide.
Import Codec.

(** One of the three channel blocks of the loop body:
    [if data_index < len(bits): new_c = (c & 0xFE) | int(bits[data_index]);
     data_index += 1]. *)
Definition set_lsb (bits : list ascii) (c : Z) (data_index : nat)
  : option (Z * nat) :=
  if data_index <? length bits then
    ch ← bits !! data_index;
    v ← int_char ch;
    Some (Z.lor (Z.land c 254) v, S data_index)
  else Some (c, data_index).

(** [for pixel in pixels: ...] with [rest] the pixels not yet visited. *)
Fixpoint hide_loop (bits : list ascii) (pixels rest : list pixel)
    (data_index : nat) (new_pixels : list pixel) : option (list pixel) :=
  match rest with
  | [] => Some new_pixels
  | (r, g, b) :: rest' =>
      '(new_r, i1) ← set_lsb bits r data_index;
      '(new_g, i2) ← set_lsb bits g i1;
      '(new_b, i3) ← set_lsb bits b i2;
      let new_pixels' := new_pixels ++ [(new_r, new_g, new_b)] in
      if length bits <=? i3
      then Some (new_pixels' ++ drop (length new_pixels') pixels)
      else hide_loop bits pixels rest' i3 new_pixels'
  end.

(** The pixel loop of [hide_data] from [data_index = 0],
    [new_pixels = []]. *)
Definition embed_bits (bits : list ascii) (pixels : list pixel)
  : option (list pixel) :=
  hide_loop bits pixels pixels 0 [].

Inductive result : Type :=
| Saved (stego : image)                   (* returns [True] *)
| TooLarge (required available : nat)     (* capacity message, [False] *)
| Raised.                                 (* an uncaught exception *)

Definition binary_of (secret_message : list N) : list ascii :=
  to_binary secret_message ++ to_binary STOP_SIGNAL.

Definition hide_data (img : image) (secret_message : list N) : result :=
  let binary_secret_message := binary_of secret_message in
  let max_capacity_bits := width img * height img * 3 in
  if max_capacity_bits <? length binary_secret_message then
    TooLarge (length binary_secret_message) max_capacity_bits
  else
    match embed_bits binary_secret_message (getdata img) with
    | Some new_pixels =>
        Saved {| width := width img; height := height img;
                 getdata := new_pixels |}
    | None => Raised
    end.

End Hide.

(** ** Extraction: [extract_data] *)

Module Extract.
Import Codec.

Inductive printed : Type :=
| WarnStopSignal                              (* "Stop signal not found" *)
| WarnIncompleteByte (byte_binary : list ascii)
| ErrorDecoding.

(** [s[-n:]] for [0 < n <= len(s)]. *)
Definition suffix_of (n : nat) (s : list ascii) : list ascii :=
  drop (length s - n) s.

(** The test of the scan loop:
    [len(e) >= len(stop) and e[-len(stop):] == stop]. *)
Definition match_at (stop e : list ascii) : bool :=
  (length stop <=? length e) && bool_decide (suffix_of (length stop) e = stop).

(** The pixel loop: three characters are appended, then the suffix is
    compared, once per pixel. *)
Fixpoint scan_loop (stop : list ascii) (rest : list pixel)
    (extracted : list ascii) : list ascii :=
  match rest with
  | [] => extracted
  | (r, g, b) :: rest' =>
      let e := ((extracted ++ [bin_last r]) ++ [bin_last g]) ++ [bin_last b] in
      if match_at stop e then e else scan_loop stop rest' e
  end.

(** The decoding loop [for i in range(0, len(data), 8)] inside the
    [try]; [idxs] are the values of [i] still to come. *)
Fixpoint decode_loop (data : list ascii) (idxs : list nat)
    (extracted_message : list N) (log : list printed)
  : option (list N) * list printed :=
  match idxs with
  | [] => (Some extracted_message, log)
  | i :: idxs' =>
      let byte_binary := take 8 (drop i data) in
      if length byte_binary =? 8 then
        match int_base2 byte_binary ≫= chr with
        | Some c => decode_loop data idxs' (extracted_message ++ [c]) log
        | None => (None, log ++ [ErrorDecoding])
        end
      else
        decode_loop data idxs' extracted_message
          (log ++ [WarnIncompleteByte byte_binary])
  end.

Definition decode (data : list ascii) (log : list printed)
  : option (list N) * list printed :=
  decode_loop data (range_step (length data) 8) [] log.

(** [if stop in data: data = data[:-len(stop)] else: print(warning)]. *)
Definition strip_stop (stop data : list ascii)
  : list ascii * list printed :=
  if str_in stop data
  then (take (length data - length stop) data, [])
  else (data, [WarnStopSignal]).

(** The returned value ([None] is Python's [None]) and what was
    printed. *)
Definition extract_data (stego : image) : option (list N) * list printed :=
  let stop_signal_binary := to_binary STOP_SIGNAL in
  let extracted := scan_loop stop_signal_binary (getdata stego) [] in
  let '(payload, log) := strip_stop stop_signal_binary extracted in
  decode payload log.

End Extract.

(** ** The file level: [load_image] and the paths of [hide_data] and
    [extract_data]

    The file system and the image library are outside the program; they
    enter as three oracles, each consulted at most once per call.  What a
    call prints and the [save] it makes are recorded, in order. *)

Module Files.
Import Codec Hide Extract.

Inductive line : Type :=
| NotFound (path : string)             (* "Error: Image file not found" *)
| LoadError (path : string)            (* "Error loading image" *)
| MessageTooLarge (required available : nat)
| HiddenOk (path : string)             (* "Message hidden successfully!" *)
| SaveError (path : string)            (* "Error saving stego-image" *)
| Extraction (p : printed).

Inductive effect : Type :=
| Print (l : line)
| Save (path : string) (img : image).  (* [stego_img.save(path)] is called *)

Inductive returned (A : Type) : Type :=
| Return (a : A)
| Uncaught.                            (* an exception leaves the function *)

Arguments Return {A} a.
Arguments Uncaught {A}.

Section World.

(** [os.path.exists(path)]. *)
Variable path_exists : string -> bool.

(** [Image.open(path).convert("RGB")]; [None] when it raises. *)
Variable image_open : string -> option image.

(** [img.save(path)]; [false] when it raises. *)
Variable image_save : string -> image -> bool.

Definition load_image (image_path : string) : option image * list effect :=
  if negb (path_exists image_path) then
    (None, [Print (NotFound image_path)])
  else
    match image_open image_path with
    | Some img => (Some img, [])
    | None => (None, [Print (LoadError image_path)])
    end.

(** [hide_data(image_path, secret_message, output_path)]. *)
Definition hide_data_file (image_path : string) (secret_message : list N)
    (output_path : string) : returned bool * list effect :=
  match load_image image_path with
  | (None, t) => (Return false, t)
  | (Some img, t) =>
      match hide_data img secret_message with
      | TooLarge required available =>
          (Return false, t ++ [Print (MessageTooLarge required available)])
      | Raised => (Uncaught, t)
      | Saved stego_img =>
          if image_save output_path stego_img
          then (Return true,
                t ++ [Save output_path stego_img; Print (HiddenOk output_path)])
          else (Return false,
                t ++ [Save output_path stego_img;
                      Print (SaveError output_path)])
      end
  end.

(** [extract_data(stego_image_path)]. *)
Definition extract_data_file (stego_image_path : string)
  : option (list N) * list effect :=
  match load_image stego_image_path with
  | (None, t) => (None, t)
  | (Some stego_img, t) =>
      let '(extracted_message, log) := extract_data stego_img in
      (extracted_message, t ++ map (fun p => Print (Extraction p)) log)
  end.

End World.

End Files.

Import Codec Hide Extract.

(** ** Reference notions the properties are stated with *)

(** A character of a binary string. *)
Definition is_bit (c : ascii) : Prop := c = "0" \/ c = "1".

(** The value of a binary character. *)
Definition bit_val (c : ascii) : Z := if Ascii.eqb c "1" then 1%Z else 0%Z.

(** The 8-bit big-endian representation of a byte: bit 7 first, bit 0
    last. *)
Definition big_endian_byte (c : N) : list ascii :=
  map (fun i => if N.testbit c i then "1" else "0") [7; 6; 5; 4; 3; 2; 1; 0]%N.

(** The least-significant bits of the channels in scan order, as a binary
    string. *)
Definition lsb_stream (ps : list pixel) : list ascii :=
  map bin_last (channels ps).

(** [s] contains [pat]: [s = a ++ pat ++ b]. *)
Definition occurs (pat s : list ascii) : Prop :=
  exists a b, s = a ++ pat ++ b.

Definition printable (c : N) : Prop := (32 <= c <= 126)%N.

(** The cover's channels with the least-significant bit of the first
    [length bits] of them replaced by the bits, in order. *)
Fixpoint embed_channels (bits : list ascii) (chans : list Z) : list Z :=
  match bits, chans with
  | [], _ => chans
  | _ :: _, [] => []
  | c :: bits', x :: chans' =>
      Z.lor (Z.land x 254) (bit_val c) :: embed_channels bits' chans'
  end.

Definition black (n : nat) : list pixel := replicate n (0, 0, 0)%Z.
Definition cover10 : image := Image 10 10 (black 100).

Ltac binary_string :=
  repeat (constructor; [first [by left | by right] |]); constructor.

(** The number a binary string denotes, most significant bit first. *)
Definition bits_value (s : list ascii) : N :=
  foldl (fun a c => (2 * a + (if Ascii.eqb c "1" then 1 else 0))%N) 0%N s.

(** The text of the complete 8-bit groups of [data], in order; a shorter
    last group is left out. *)
Definition decoded (data : list ascii) : list N :=
  map (fun j => bits_value (take 8 (drop (j * 8) data)))
      (seq 0 (length data / 8)).

(** What the decoding loop prints for a last group of fewer than 8 bits. *)
Definition incomplete_warning (data : list ascii) : list printed :=
  if length data mod 8 =? 0 then []
  else [WarnIncompleteByte (drop (length data / 8 * 8) data)].

(** The stego image of ["a"] in the all-black 10x10 cover. *)
Definition stego_a : image :=
  match hide_data cover10 [97%N] with
  | Saved stego => stego
  | _ => cover10
  end.

(** What the scan accumulates on it. *)
Definition scanned_a : list ascii :=
  scan_loop (to_binary STOP_SIGNAL) (getdata stego_a) [].

(** Code point 300 followed by ["hi"], and its stego image in the 10x10
    cover. *)
Definition wide_hi : list N := [300; 104; 105]%N.

Definition stego_wide_hi : image :=
  match hide_data cover10 wide_hi with
  | Saved stego => stego
  | _ => cover10
  end.

(** The stego image of ["hi"] in the same cover, and a white pixel. *)
Definition stego_hi : image :=
  match hide_data cover10 [104; 105]%N with
  | Saved stego => stego
  | _ => cover10
  end.

Definition white : pixel := (255, 255, 255)%Z.

(** ["hi#####END#####x"]: a message that contains the stop signal. *)
Definition hi_stop_x : list N := [104; 105]%N ++ STOP_SIGNAL ++ [120]%N.

(** Its stego image in the 10x10 cover. *)
Definition stego_hi_stop_x : image :=
  match hide_data cover10 hi_stop_x with
  | Saved stego => stego
  | _ => cover10
  end.

(** The suffix test fails at every pixel count from 1 to [n] on the first
    bits of [bits]. *)
Definition no_match_upto (stop bits : list ascii) (n : nat) : bool :=
  forallb (fun j => negb (match_at stop (take (3 * j) bits))) (seq 1 n).

(** ** The codec *)

Section CodecFacts.

Lemma pos_digits_bits (p : positive) : Forall is_bit (pos_digits p).
Proof.
  induction p as [q IH | q IH |]; simpl.
  - apply Forall_app; split; [exact IH | repeat constructor; by right].
  - apply Forall_app; split; [exact IH | repeat constructor; by left].
  - repeat constructor; by right.
Qed.

Lemma bin_digits_bits (n : N) : Forall is_bit (bin_digits n).
Proof.
  destruct n as [| p]; simpl; [repeat constructor; by left |].
  apply pos_digits_bits.
Qed.

Lemma format_08b_bits (n : N) : Forall is_bit (format_08b n).
Proof.
  unfold format_08b. apply Forall_app; split; [| apply bin_digits_bits].
  apply Forall_replicate. by left.
Qed.

Lemma to_binary_bits (data : list N) : Forall is_bit (to_binary data).
Proof.
  unfold to_binary. induction data as [| c data IH]; simpl; [constructor |].
  apply Forall_app; split; [apply format_08b_bits | exact IH].
Qed.

Lemma to_binary_app (a b : list N) :
  to_binary (a ++ b) = to_binary a ++ to_binary b.
Proof. unfold to_binary. by rewrite map_app, concat_app. Qed.

(** On a byte, [format(_, "08b")] is the 8-bit big-endian representation. *)
Lemma format_08b_byte (c : N) :
  (c <= 255)%N -> format_08b c = big_endian_byte c.
Proof.
  intros Hc. destruct c as [| p]; [reflexivity |].
  do 8 (try destruct p as [p | p |]); try reflexivity; lia.
Qed.

Lemma big_endian_byte_length (c : N) : length (big_endian_byte c) = 8.
Proof. reflexivity. Qed.

Lemma length_pos_digits (p : positive) :
  length (pos_digits p) = Pos.to_nat (Pos.size p).
Proof.
  induction p as [q IH | q IH |]; simpl; [| | reflexivity];
    rewrite length_app, IH; simpl; lia.
Qed.

(** [format(_, "08b")] never truncates: a code point above 255 gives
    more than 8 characters. *)
Lemma format_08b_wide (c : N) : (255 < c)%N -> 8 < length (format_08b c).
Proof.
  intros Hc. unfold format_08b. rewrite length_app.
  destruct c as [| p]; [lia |]. simpl bin_digits.
  assert (9 <= length (pos_digits p)); [| lia].
  do 8 (destruct p as [p | p |]; try lia);
    simpl; rewrite ?length_app; simpl;
    pose proof (length_pos_digits p); lia.
Qed.

Lemma to_binary_length (text : list N) :
  Forall (fun c => (c <= 255)%N) text ->
  length (to_binary text) = 8 * length text.
Proof.
  unfold to_binary. induction 1 as [| c text Hc _ IH]; [reflexivity |].
  simpl. rewrite length_app, IH, (format_08b_byte c Hc). simpl. lia.
Qed.

Lemma STOP_SIGNAL_length : length (to_binary STOP_SIGNAL) = 104.
Proof. reflexivity. Qed.

End CodecFacts.

(** C3. For a text whose characters all have code points in 0..255,
    [to_binary] returns the concatenation, in character order, of each
    character's 8-bit big-endian representation; the result has exactly
    8 characters per character of the text. *)
Theorem to_binary_big_endian (text : list N) :
  Forall (fun c => (c <= 255)%N) text ->
  to_binary text = concat (map big_endian_byte text)
  /\ length (to_binary text) = 8 * length text.
Proof.
  intros Hb. split; [| by apply to_binary_length].
  unfold to_binary. f_equal.
  induction Hb as [| c text Hc _ IH]; [reflexivity |].
  simpl. by rewrite IH, (format_08b_byte c Hc).
Qed.

Lemma to_binary_big_endian_witness :
  Forall (fun c => (c <= 255)%N) [104; 105; 0; 255]%N
  /\ to_binary [104; 105; 0; 255]%N
     = concat (map big_endian_byte [104; 105; 0; 255]%N)
  /\ length (to_binary [104; 105; 0; 255]%N) = 8 * 4.
Proof.
  assert (H : Forall (fun c => (c <= 255)%N) [104; 105; 0; 255]%N).
  { repeat constructor; lia. }
  split; [exact H |]. exact (to_binary_big_endian _ H).
Defined.

(** ** The embedding loop *)

Section HideLoop.
Variable bits : list ascii.
Hypothesis bits_binary : Forall is_bit bits.

Lemma int_char_bit (c : ascii) : is_bit c -> int_char c = Some (bit_val c).
Proof. intros [-> | ->]; reflexivity. Qed.

Lemma embed_channels_nil_r (bs : list ascii) : embed_channels bs [] = [].
Proof. by destruct bs. Qed.

(** One channel block consumes one bit when one is left. *)
Lemma set_lsb_step (c : Z) (i : nat) :
  exists x i',
    set_lsb bits c i = Some (x, i')
    /\ forall cs, embed_channels (drop i bits) (c :: cs)
                  = x :: embed_channels (drop i' bits) cs.
Proof.
  unfold set_lsb. destruct (Nat.ltb_spec i (length bits)) as [Hlt | Hge].
  - destruct (lookup_lt_is_Some_2 bits i Hlt) as [ch Hch].
    rewrite Hch. simpl.
    assert (Hb : is_bit ch).
    { eapply Forall_lookup_1; [exact bits_binary | exact Hch]. }
    rewrite (int_char_bit ch Hb). simpl.
    eexists _, _. split; [reflexivity |].
    intros cs. by rewrite (drop_S bits ch i Hch).
  - eexists _, _. split; [reflexivity |].
    intros cs. by rewrite (drop_ge bits i Hge).
Qed.

Lemma channels_app (a b : list pixel) :
  channels (a ++ b) = channels a ++ channels b.
Proof. unfold channels. apply flat_map_app. Qed.

Lemma length_channels (ps : list pixel) : length (channels ps) = 3 * length ps.
Proof.
  induction ps as [| [[r g] b] ps IH]; [reflexivity |].
  change (channels ((r, g, b) :: ps)) with ([r; g; b] ++ channels ps).
  rewrite length_app, IH. simpl. lia.
Qed.

(** Loop invariant: [new_pixels] stands for the visited pixels, and what
    is returned carries the unread bits on the channels still to come. *)
Lemma hide_loop_channels (pixels : list pixel) :
  forall rest visited new_pixels i,
    pixels = visited ++ rest ->
    length new_pixels = length visited ->
    exists out,
      hide_loop bits pixels rest i new_pixels = Some out
      /\ channels out
         = channels new_pixels ++ embed_channels (drop i bits) (channels rest)
      /\ length out = length new_pixels + length rest.
Proof.
  induction rest as [| [[r g] b] rest IH]; intros visited acc i Hpx Hlen.
  - exists acc. simpl. rewrite embed_channels_nil_r, app_nil_r.
    split; [reflexivity | split; [reflexivity | lia]].
  - destruct (set_lsb_step r i) as (x1 & i1 & E1 & S1).
    destruct (set_lsb_step g i1) as (x2 & i2 & E2 & S2).
    destruct (set_lsb_step b i2) as (x3 & i3 & E3 & S3).
    cbn [hide_loop]. rewrite E1. cbn [mbind option_bind].
    rewrite E2. cbn [mbind option_bind]. rewrite E3. cbn [mbind option_bind].
    change (channels ((r, g, b) :: rest)) with (r :: g :: b :: channels rest).
    rewrite S1, S2, S3.
    destruct (Nat.leb_spec (length bits) i3) as [Hdone | Hmore].
    + eexists. split; [reflexivity |].
      assert (Hdrop : drop (length (acc ++ [(x1, x2, x3)])) pixels = rest).
      { rewrite Hpx, length_app, Hlen. simpl.
        rewrite (cons_middle _ visited rest), app_assoc.
        apply drop_app_length'. rewrite length_app. simpl. lia. }
      rewrite Hdrop, (drop_ge bits i3 Hdone). simpl embed_channels.
      rewrite !channels_app, !length_app. simpl.
      split; [by rewrite <- app_assoc | lia].
    + destruct (IH (visited ++ [(r, g, b)]) (acc ++ [(x1, x2, x3)]) i3)
        as (out & Eout & Hch & Hl).
      { by rewrite <- app_assoc. }
      { rewrite !length_app. simpl. lia. }
      exists out. split; [exact Eout |].
      rewrite Hch, Hl, channels_app, length_app. simpl.
      split; [by rewrite <- app_assoc | lia].
Qed.

(** The loop never raises on a binary string, keeps the number of
    pixels, and writes exactly [embed_channels]. *)
Lemma embed_bits_channels (pixels : list pixel) :
  exists out,
    embed_bits bits pixels = Some out
    /\ channels out = embed_channels bits (channels pixels)
    /\ length out = length pixels.
Proof.
  destruct (hide_loop_channels pixels pixels [] [] 0 eq_refl eq_refl)
    as (out & E & Hch & Hl).
  exists out. split; [exact E |]. split; [exact Hch | exact Hl].
Qed.

End HideLoop.

Section EmbedChannels.

Lemma length_embed_channels (bits : list ascii) (chans : list Z) :
  length (embed_channels bits chans) = length chans.
Proof.
  revert chans. induction bits as [| c bits IH]; intros [| x chans];
    simpl; auto.
Qed.

Lemma embed_channels_lookup_lt bits chans k c x :
  bits !! k = Some c -> chans !! k = Some x ->
  embed_channels bits chans !! k = Some (Z.lor (Z.land x 254) (bit_val c)).
Proof.
  revert chans k. induction bits as [| c0 bits IH]; intros [| x0 chans] [| k];
    simpl; try discriminate.
  - by intros [= ->] [= ->].
  - apply IH.
Qed.

Lemma embed_channels_lookup_ge bits chans k :
  length bits <= k -> embed_channels bits chans !! k = chans !! k.
Proof.
  revert chans k. induction bits as [| c0 bits IH]; intros [| x0 chans] [| k];
    simpl; try reflexivity; try lia.
  intros H. apply IH. lia.
Qed.

(** Replacing the least-significant bit of an 8-bit value leaves every
    other bit as it was, and the value 8-bit. *)
Lemma set_bit_high (x : Z) (c : ascii) (j : Z) :
  chan_ok x -> (0 < j)%Z ->
  Z.testbit (Z.lor (Z.land x 254) (bit_val c)) j = Z.testbit x j.
Proof.
  intros [Hlo Hhi] Hj.
  rewrite Z.lor_spec, Z.land_spec.
  assert (Hb : Z.testbit (bit_val c) j = false).
  { unfold bit_val. destruct (Ascii.eqb c "1").
    - destruct j; try lia; reflexivity.
    - apply Z.testbit_0_l. }
  rewrite Hb, orb_false_r.
  destruct (Z.lt_ge_cases j 8) as [Hj8 | Hj8].
  - assert (Hcases : (j = 1 \/ j = 2 \/ j = 3 \/ j = 4 \/ j = 5 \/ j = 6
                      \/ j = 7)%Z) by lia.
    assert (H254 : Z.testbit 254 j = true).
    { destruct Hcases as [-> | [-> | [-> | [-> | [-> | [-> | ->]]]]]];
        reflexivity. }
    by rewrite H254, andb_true_r.
  - assert (Hx : Z.testbit x j = false).
    { destruct (Z.eq_dec x 0%Z) as [-> | Hx0]; [apply Z.testbit_0_l |].
      apply Z.bits_above_log2; [lia |].
      apply Z.log2_lt_pow2; [lia |].
      apply Z.lt_le_trans with (2 ^ 8)%Z; [simpl; lia |].
      apply Z.pow_le_mono_r; lia. }
    by rewrite Hx.
Qed.

Lemma set_bit_chan_ok (x : Z) (c : ascii) :
  chan_ok x -> chan_ok (Z.lor (Z.land x 254) (bit_val c)).
Proof.
  intros [Hlo Hhi].
  assert (Hb : (0 <= bit_val c)%Z /\ Z.log2 (bit_val c) = 0%Z).
  { unfold bit_val. destruct (Ascii.eqb c "1"); split; (lia || reflexivity). }
  destruct Hb as [Hb0 Hb1].
  assert (Ha0 : (0 <= Z.land x 254)%Z) by (apply Z.land_nonneg; lia).
  assert (Ha1 : (Z.log2 (Z.land x 254) <= 7)%Z).
  { pose proof (Z.log2_land x 254 Hlo ltac:(lia)) as Hl.
    change (Z.log2 254) with 7%Z in Hl. lia. }
  split; [apply Z.lor_nonneg; lia |].
  set (y := Z.lor (Z.land x 254) (bit_val c)).
  assert (Hy0 : (0 <= y)%Z) by (apply Z.lor_nonneg; lia).
  destruct (Z.eq_dec y 0%Z) as [-> | Hne]; [lia |].
  assert (y < 2 ^ 8)%Z; [| lia].
  apply Z.log2_lt_pow2; [lia |].
  unfold y. rewrite Z.log2_lor by assumption. lia.
Qed.

Lemma channels_ok (ps : list pixel) :
  Forall pixel_ok ps <-> Forall chan_ok (channels ps).
Proof.
  induction ps as [| [[r g] b] ps IH].
  - split; constructor.
  - change (channels ((r, g, b) :: ps)) with (r :: g :: b :: channels ps).
    split.
    + intros Hall. apply Forall_cons in Hall as [(Hr & Hg & Hb) Hps].
      apply IH in Hps. repeat (apply Forall_cons; split; [assumption |]).
      exact Hps.
    + intros Hall. apply Forall_cons in Hall as [Hr Hall].
      apply Forall_cons in Hall as [Hg Hall].
      apply Forall_cons in Hall as [Hb Hps].
      apply Forall_cons. split; [exact (conj Hr (conj Hg Hb)) | by apply IH].
Qed.

Lemma embed_channels_ok (bits : list ascii) :
  forall chans,
    Forall chan_ok chans -> Forall chan_ok (embed_channels bits chans).
Proof.
  induction bits as [| c bits IH]; intros chans Hok; [exact Hok |].
  destruct Hok as [| x chans Hx Hok]; [constructor |].
  cbn [embed_channels]. constructor; [by apply set_bit_chan_ok | by apply IH].
Qed.

End EmbedChannels.

(** ** [hide_data] *)

Section HideData.

Lemma binary_of_bits (m : list N) : Forall is_bit (binary_of m).
Proof. apply Forall_app; split; apply to_binary_bits. Qed.

Lemma format_08b_min_width (c : N) : 8 <= length (format_08b c).
Proof. unfold format_08b. rewrite length_app, length_replicate. lia. Qed.

Lemma to_binary_min_length (m : list N) : 8 * length m <= length (to_binary m).
Proof.
  unfold to_binary. induction m as [| c m IH]; simpl; [lia |].
  rewrite length_app. pose proof (format_08b_min_width c). lia.
Qed.

Lemma to_binary_wide (m : list N) :
  Exists (fun c => (255 < c)%N) m -> 8 * length m < length (to_binary m).
Proof.
  unfold to_binary. induction 1 as [c m Hc | c m _ IH]; simpl;
    rewrite length_app.
  - pose proof (format_08b_wide c Hc).
    pose proof (to_binary_min_length m) as Hm. unfold to_binary in Hm. lia.
  - pose proof (format_08b_min_width c). lia.
Qed.

(** What [hide_data] returns, by the capacity test. *)
Lemma hide_data_cases (img : image) (m : list N) :
  (length (binary_of m) <= width img * height img * 3
   /\ exists px,
        hide_data img m = Saved (Image (width img) (height img) px)
        /\ channels px = embed_channels (binary_of m) (channels (getdata img))
        /\ length px = length (getdata img))
  \/ (width img * height img * 3 < length (binary_of m)
      /\ hide_data img m
         = TooLarge (length (binary_of m)) (width img * height img * 3)).
Proof.
  unfold hide_data.
  destruct (Nat.ltb_spec (width img * height img * 3) (length (binary_of m)))
    as [Hbig | Hfit].
  - right. split; [exact Hbig | reflexivity].
  - left. split; [exact Hfit |].
    destruct (embed_bits_channels _ (binary_of_bits m) (getdata img))
      as (px & E & Hch & Hl).
    exists px. rewrite E. auto.
Qed.

(** On a well-formed cover, a saved stego image is well formed, of the
    cover's size, and its channels are the cover's with the bits written. *)
Lemma hide_data_stego_ok (img stego : image) (m : list N) :
  image_ok img ->
  hide_data img m = Saved stego ->
  image_ok stego
  /\ width stego = width img
  /\ height stego = height img
  /\ channels (getdata stego)
     = embed_channels (binary_of m) (channels (getdata img)).
Proof.
  intros [Hsize Hpx] Hsaved.
  destruct (hide_data_cases img m) as [[_ (px & E & Hch & Hl)] | [_ E]];
    rewrite E in Hsaved; [| discriminate].
  injection Hsaved as <-. cbn [width height getdata].
  split; [| auto]. split; cbn [width height getdata].
  - by rewrite Hl.
  - apply channels_ok. rewrite Hch. by apply embed_channels_ok, channels_ok.
Qed.

End HideData.

(** C4. Embedding succeeds exactly when the bit length of the message plus
    terminator is at most width*height*3; otherwise it stops at the capacity
    test, reporting the required and the available bits, and yields no
    image at all. *)
Theorem hide_data_capacity (img : image) (m : list N) :
  ((exists stego, hide_data img m = Saved stego)
   <-> length (binary_of m) <= width img * height img * 3)
  /\ (hide_data img m
        = TooLarge (length (binary_of m)) (width img * height img * 3)
      <-> width img * height img * 3 < length (binary_of m)).
Proof.
  destruct (hide_data_cases img m) as [[Hfit (px & E & _)] | [Hbig E]];
    rewrite E.
  - split; split.
    + intros _. exact Hfit.
    + intros _. eexists. reflexivity.
    + discriminate.
    + lia.
  - split; split.
    + intros [stego Hs]. discriminate.
    + lia.
    + intros _. exact Hbig.
    + intros _. reflexivity.
Qed.

(** At the capacity boundary: 40 pixels hold exactly the 120 bits of ["hi"] and
    the terminator; 37 pixels (111 bits) are one bit short of the 112 bits
    of ["a"] and the terminator. *)
Example hide_data_capacity_boundary :
  (exists stego, hide_data (Image 8 5 (black 40)) [104; 105]%N = Saved stego)
  /\ hide_data (Image 37 1 (black 37)) [97]%N = TooLarge 112 111.
Proof. split; [eexists |]; vm_compute; reflexivity. Qed.

(** C5. For a cover and a binary string of [n] characters that fits, the
    loop returns an image of the same number of pixels in which every
    channel from position [n] on, in scan order, is the cover's. *)
Theorem embed_bits_excess_unchanged (bits : list ascii) (pixels : list pixel) :
  Forall is_bit bits ->
  length bits <= 3 * length pixels ->
  exists out,
    embed_bits bits pixels = Some out
    /\ length out = length pixels
    /\ forall k, length bits <= k ->
         channels out !! k = channels pixels !! k.
Proof.
  intros Hbits _.
  destruct (embed_bits_channels bits Hbits pixels) as (out & E & Hch & Hl).
  exists out. split; [exact E |]. split; [exact Hl |].
  intros k Hk. rewrite Hch. by apply embed_channels_lookup_ge.
Qed.

Lemma embed_bits_excess_unchanged_witness :
  exists out,
    embed_bits ["1"; "0"; "1"; "1"] [(8, 9, 10); (11, 12, 13); (14, 15, 16)]%Z
      = Some out
    /\ length out = 3
    /\ forall k, 4 <= k ->
         channels out !! k
         = channels [(8, 9, 10); (11, 12, 13); (14, 15, 16)]%Z !! k.
Proof.
  apply (embed_bits_excess_unchanged ["1"; "0"; "1"; "1"]
           [(8, 9, 10); (11, 12, 13); (14, 15, 16)]%Z).
  - binary_string.
  - simpl. lia.
Defined.

(** C6. For a cover with 8-bit channels and a binary string that fits, the
    [k]-th channel of the output in scan order is
    [(original & 0xFE) | bits[k]] for every [k < len(bits)]; and every
    output channel agrees with its cover channel on every bit but the
    least-significant one. *)
Theorem embed_bits_lsb (bits : list ascii) (pixels : list pixel) :
  Forall is_bit bits ->
  Forall pixel_ok pixels ->
  length bits <= 3 * length pixels ->
  exists out,
    embed_bits bits pixels = Some out
    /\ (forall k c, bits !! k = Some c ->
          exists x, channels pixels !! k = Some x
                    /\ channels out !! k
                       = Some (Z.lor (Z.land x 254) (bit_val c)))
    /\ (forall k x, channels pixels !! k = Some x ->
          exists y, channels out !! k = Some y
                    /\ forall j, (0 < j)%Z -> Z.testbit y j = Z.testbit x j).
Proof.
  intros Hbits Hok Hfit.
  destruct (embed_bits_channels bits Hbits pixels) as (out & E & Hch & Hl).
  exists out. split; [exact E |]. rewrite Hch. split.
  - intros k c Hc.
    assert (Hk : k < length (channels pixels)).
    { rewrite length_channels. apply lookup_lt_Some in Hc. lia. }
    destruct (lookup_lt_is_Some_2 _ _ Hk) as [x Hx].
    exists x. split; [exact Hx |]. by apply embed_channels_lookup_lt.
  - intros k x Hx.
    assert (Hxok : chan_ok x).
    { apply channels_ok in Hok.
      eapply Forall_lookup_1; [exact Hok | exact Hx]. }
    destruct (decide (k < length bits)) as [Hlt | Hge].
    + destruct (lookup_lt_is_Some_2 _ _ Hlt) as [c Hc].
      eexists. split; [by apply embed_channels_lookup_lt |].
      intros j Hj. by apply set_bit_high.
    + exists x. split; [| reflexivity].
      rewrite embed_channels_lookup_ge; [exact Hx | lia].
Qed.

Lemma embed_bits_lsb_witness :
  exists out,
    embed_bits ["1"; "0"; "1"; "1"] [(8, 9, 10); (11, 12, 13); (14, 15, 16)]%Z
      = Some out
    /\ (forall k c, ["1"; "0"; "1"; "1"] !! k = Some c ->
          exists x, channels [(8, 9, 10); (11, 12, 13); (14, 15, 16)]%Z !! k
                    = Some x
                    /\ channels out !! k
                       = Some (Z.lor (Z.land x 254) (bit_val c)))
    /\ (forall k x,
          channels [(8, 9, 10); (11, 12, 13); (14, 15, 16)]%Z !! k = Some x ->
          exists y, channels out !! k = Some y
                    /\ forall j, (0 < j)%Z -> Z.testbit y j = Z.testbit x j).
Proof.
  apply (embed_bits_lsb ["1"; "0"; "1"; "1"]
           [(8, 9, 10); (11, 12, 13); (14, 15, 16)]%Z).
  - binary_string.
  - repeat constructor; unfold chan_ok; lia.
  - simpl. lia.
Defined.

(** The same for [hide_data] itself: on a well-formed cover, the saved
    image carries bit [k] of the message-plus-terminator string in the
    least-significant bit of channel [k], and the cover's channel from the
    end of that string on. *)
Lemma hide_data_channels (img stego : image) (m : list N) :
  image_ok img ->
  hide_data img m = Saved stego ->
  (forall k c, binary_of m !! k = Some c ->
     exists x, channels (getdata img) !! k = Some x
               /\ channels (getdata stego) !! k
                  = Some (Z.lor (Z.land x 254) (bit_val c)))
  /\ (forall k, length (binary_of m) <= k ->
        channels (getdata stego) !! k = channels (getdata img) !! k).
Proof.
  intros Hok Hsaved.
  destruct (hide_data_stego_ok img stego m Hok Hsaved) as (_ & _ & _ & Hch).
  destruct (hide_data_cases img m) as [[Hfit _] | [_ E]];
    [| rewrite E in Hsaved; discriminate].
  rewrite Hch. split.
  - intros k c Hc.
    assert (Hk : k < length (channels (getdata img))).
    { rewrite length_channels, (size_ok img Hok).
      apply lookup_lt_Some in Hc. lia. }
    destruct (lookup_lt_is_Some_2 _ _ Hk) as [x Hx].
    exists x. split; [exact Hx |]. by apply embed_channels_lookup_lt.
  - intros k Hk. by apply embed_channels_lookup_ge.
Qed.

(** ** The extraction scan *)

Section Scan.

Lemma last_pos_digits (pre : list ascii) (p : positive) :
  List.last (pre ++ pos_digits p) "0"
  = match p with xO _ => "0" | _ => "1" end.
Proof.
  destruct p as [q | q |]; simpl; rewrite ?app_assoc; apply last_last.
Qed.

(** [bin(z)[-1]] is the parity digit. *)
Lemma bin_last_odd (z : Z) : bin_last z = if Z.odd z then "1" else "0".
Proof.
  unfold bin_last, bin. rewrite app_assoc.
  destruct z as [| p | p]; simpl Z.abs_N; simpl bin_digits.
  - reflexivity.
  - rewrite last_pos_digits. by destruct p.
  - rewrite last_pos_digits. by destruct p.
Qed.

Lemma bin_last_bit (z : Z) : is_bit (bin_last z).
Proof. rewrite bin_last_odd. destruct (Z.odd z); [by right | by left]. Qed.

Lemma lsb_stream_bits (ps : list pixel) : Forall is_bit (lsb_stream ps).
Proof.
  unfold lsb_stream. apply Forall_map, Forall_forall.
  intros. apply bin_last_bit.
Qed.

Lemma lsb_stream_app (a b : list pixel) :
  lsb_stream (a ++ b) = lsb_stream a ++ lsb_stream b.
Proof. unfold lsb_stream. by rewrite channels_app, map_app. Qed.

Lemma length_lsb_stream (ps : list pixel) :
  length (lsb_stream ps) = 3 * length ps.
Proof. unfold lsb_stream. by rewrite length_map, length_channels. Qed.

Variable stop : list ascii.

(** The scan returns the bits of the first [j] pixels, where [j] is the
    first pixel count at which the suffix test succeeds, or all of them. *)
Lemma scan_loop_first_match :
  forall rest extracted,
  exists j,
    j <= length rest
    /\ scan_loop stop rest extracted = extracted ++ lsb_stream (take j rest)
    /\ (forall j', 0 < j' < j ->
          match_at stop (extracted ++ lsb_stream (take j' rest)) = false)
    /\ (j = length rest
        \/ match_at stop (extracted ++ lsb_stream (take j rest)) = true).
Proof.
  induction rest as [| [[r g] b] rest IH]; intros acc.
  - exists 0. simpl. rewrite app_nil_r.
    split; [lia |]. split; [reflexivity |]. split; [intros; lia | by left].
  - cbn [scan_loop].
    set (e := ((acc ++ [bin_last r]) ++ [bin_last g]) ++ [bin_last b]).
    assert (He : forall tl : list pixel,
               acc ++ lsb_stream (@cons pixel (r, g, b) tl)
               = e ++ lsb_stream tl).
    { intros tl. subst e.
      change (lsb_stream (@cons pixel (r, g, b) tl))
        with ([bin_last r] ++ [bin_last g] ++ [bin_last b] ++ lsb_stream tl).
      by rewrite !app_assoc. }
    assert (Hnil : forall x : list ascii, x ++ lsb_stream [] = x).
    { intros x. change (lsb_stream []) with (@nil ascii). apply app_nil_r. }
    fold (match_at stop e).
    destruct (match_at stop e) eqn:Hm.
    + exists 1. split; [simpl; lia |].
      change (take 1 ((r, g, b) :: rest)) with (@cons pixel (r, g, b) []).
      rewrite (He []), Hnil.
      split; [reflexivity |]. split; [intros; lia | by right].
    + destruct (IH e) as (j & Hj & Escan & Hbefore & Hstop).
      exists (S j). split; [simpl; lia |].
      change (take (S j) ((r, g, b) :: rest))
        with (@cons pixel (r, g, b) (take j rest)).
      rewrite (He (take j rest)).
      split; [exact Escan |]. split.
      * intros [| j'] Hj'; [lia |].
        change (take (S j') ((r, g, b) :: rest))
          with (@cons pixel (r, g, b) (take j' rest)).
        rewrite (He (take j' rest)).
        destruct j' as [| j''].
        -- rewrite take_0, Hnil. exact Hm.
        -- apply Hbefore. lia.
      * destruct Hstop as [-> | Hmatch]; [by left | by right].
Qed.

Lemma match_at_occurs (e : list ascii) :
  match_at stop e = true -> occurs stop e.
Proof.
  unfold match_at, suffix_of.
  intros [Hlen Heq%bool_decide_eq_true]%andb_true_iff.
  exists (take (length e - length stop) e), [].
  rewrite app_nil_r. rewrite <- Heq at 2. by rewrite take_drop.
Qed.

Lemma occurs_prefix (a b : list ascii) : occurs stop a -> occurs stop (a ++ b).
Proof.
  intros (x & y & ->). exists x, (y ++ b). by rewrite <- !app_assoc.
Qed.

(** Without an occurrence of the pattern the scan reads every pixel. *)
Lemma scan_loop_no_stop (pixels : list pixel) :
  ~ occurs stop (lsb_stream pixels) ->
  scan_loop stop pixels [] = lsb_stream pixels.
Proof.
  intros Hno.
  destruct (scan_loop_first_match pixels []) as (j & Hj & E & _ & Hstop).
  rewrite E. simpl.
  destruct Hstop as [-> | Hm]; [by rewrite take_ge |].
  exfalso. apply Hno. apply match_at_occurs in Hm. simpl in Hm.
  rewrite <- (take_drop j pixels), lsb_stream_app. by apply occurs_prefix.
Qed.

End Scan.

Section Substring.

Lemma starts_with_spec (pat s : list ascii) :
  starts_with pat s = true <-> exists b, s = pat ++ b.
Proof.
  revert s. induction pat as [| p pat IH]; intros s; simpl.
  - split; [intros _; by exists s | reflexivity].
  - destruct s as [| c s].
    + split; [discriminate | intros [b Hb]; discriminate].
    + rewrite andb_true_iff, IH. split.
      * intros [->%Ascii.eqb_eq [b ->]]. by exists b.
      * intros [b [= -> ->]]. split; [apply Ascii.eqb_refl | by exists b].
Qed.

Lemma str_in_spec (pat s : list ascii) :
  str_in pat s = true <-> occurs pat s.
Proof.
  induction s as [| c s IH].
  - simpl. rewrite orb_false_r, starts_with_spec. unfold occurs. split.
    + intros [b Hb]. by exists [], b.
    + intros ([| x a] & b & Hb); [by exists b | discriminate].
  - cbn [str_in]. rewrite orb_true_iff, starts_with_spec, IH.
    unfold occurs. split.
    + intros [[b Hb] | (a & b & ->)]; [by exists [], b |].
      by exists (c :: a), b.
    + intros ([| x a] & b & Hb); [left; by exists b |].
      right. injection Hb as -> ->. by exists a, b.
Qed.

(** The split is right when the terminator is the end of the string, and
    when it does not occur at all. *)
Lemma strip_stop_suffix (stop a : list ascii) :
  strip_stop stop (a ++ stop) = (a, []).
Proof.
  unfold strip_stop.
  assert (Hin : str_in stop (a ++ stop) = true).
  { apply str_in_spec. exists a, []. by rewrite app_nil_r. }
  rewrite Hin, take_app_length'; [reflexivity |]. rewrite length_app. lia.
Qed.

Lemma strip_stop_absent (stop data : list ascii) :
  ~ occurs stop data -> strip_stop stop data = (data, [WarnStopSignal]).
Proof.
  intros Hno. unfold strip_stop.
  destruct (str_in stop data) eqn:Hin; [| reflexivity].
  exfalso. by apply Hno, str_in_spec.
Qed.

End Substring.

(** ** Decoding *)

Section Decode.

Lemma int_base2_fold (s : list ascii) :
  Forall is_bit s ->
  forall a,
    foldl (fun acc c => a ← acc; d ← digit2 c; Some (2 * a + d)%N) (Some a) s
    = Some (foldl (fun a c => (2 * a + (if Ascii.eqb c "1" then 1 else 0))%N)
                  a s).
Proof.
  induction 1 as [| c s Hc _ IH]; intros a; [reflexivity |].
  cbn [foldl]. rewrite <- IH. f_equal.
  destruct Hc as [-> | ->]; reflexivity.
Qed.

Lemma int_base2_bits (s : list ascii) :
  Forall is_bit s -> s <> [] -> int_base2 s = Some (bits_value s).
Proof.
  intros Hs Hne. destruct s as [| c s]; [done |].
  unfold int_base2, bits_value. by apply int_base2_fold.
Qed.

Lemma bits_value_bound (s : list ascii) :
  forall a,
    (foldl (fun a c => (2 * a + (if Ascii.eqb c "1" then 1 else 0))%N) a s
     < (a + 1) * 2 ^ N.of_nat (length s))%N.
Proof.
  induction s as [| c s IH]; intros a.
  - simpl. lia.
  - cbn [foldl length]. rewrite Nat2N.inj_succ, N.pow_succ_r'.
    eapply N.lt_le_trans; [apply IH |].
    destruct (Ascii.eqb c "1"); nia.
Qed.

Lemma bits_value_byte (s : list ascii) :
  length s = 8 -> (bits_value s < 256)%N.
Proof.
  intros Hl. pose proof (bits_value_bound s 0%N) as Hb.
  rewrite Hl in Hb. exact Hb.
Qed.

Variable data : list ascii.
Hypothesis data_binary : Forall is_bit data.

(** A complete group decodes to its value; nothing is raised. *)
Lemma decode_group (a : nat) :
  (a + 1) * 8 <= length data ->
  length (take 8 (drop (a * 8) data)) = 8
  /\ int_base2 (take 8 (drop (a * 8) data)) ≫= chr
     = Some (bits_value (take 8 (drop (a * 8) data))).
Proof.
  intros Ha.
  assert (Hl : length (take 8 (drop (a * 8) data)) = 8).
  { rewrite length_take, length_drop. lia. }
  split; [exact Hl |].
  rewrite int_base2_bits.
  - simpl. unfold chr. pose proof (bits_value_byte _ Hl) as Hb.
    destruct (N.leb_spec (bits_value (take 8 (drop (a * 8) data))) 1114111);
      [reflexivity | lia].
  - by apply Forall_take, Forall_drop.
  - intros E. rewrite E in Hl. discriminate.
Qed.

Lemma decode_loop_groups :
  forall n a tail msg log,
    (a + n) * 8 <= length data ->
    decode_loop data (map (fun j => j * 8) (seq a n) ++ tail) msg log
    = decode_loop data tail
        (msg ++ map (fun j => bits_value (take 8 (drop (j * 8) data)))
                    (seq a n))
        log.
Proof.
  induction n as [| n IH]; intros a tail msg log Hn.
  - simpl. by rewrite app_nil_r.
  - cbn [seq map app decode_loop].
    destruct (decode_group a) as [Hl Hv]; [lia |].
    rewrite Hl, Hv. cbn [Nat.eqb].
    rewrite IH by lia. by rewrite <- app_assoc.
Qed.

Lemma range_step_8 (len : nat) :
  range_step len 8
  = map (fun j => j * 8) (seq 0 (len / 8))
    ++ (if len mod 8 =? 0 then [] else [len / 8 * 8]).
Proof.
  unfold range_step.
  pose proof (Nat.div_mod_eq len 8) as Hdm.
  pose proof (Nat.mod_upper_bound len 8) as Hr.
  destruct (Nat.eqb_spec (len mod 8) 0) as [H0 | Hn0].
  - rewrite app_nil_r. do 2 f_equal.
    symmetry. apply (Nat.div_unique _ 8 _ 7); lia.
  - assert (Hq : (len + 8 - 1) / 8 = S (len / 8)).
    { symmetry. apply (Nat.div_unique _ 8 _ (len mod 8 - 1)); lia. }
    rewrite Hq, seq_S, map_app. reflexivity.
Qed.

(** The decoding loop on a binary string: it returns the text of the
    complete groups and warns about a shorter last one. *)
Lemma decode_binary (log : list printed) :
  decode data log = (Some (decoded data), log ++ incomplete_warning data).
Proof.
  unfold decode, decoded, incomplete_warning.
  pose proof (Nat.div_mod_eq (length data) 8) as Hdm.
  pose proof (Nat.mod_upper_bound (length data) 8) as Hr.
  rewrite range_step_8, decode_loop_groups by lia.
  change ([] ++ ?x) with x.
  destruct (Nat.eqb_spec (length data mod 8) 0) as [H0 | Hn0].
  - cbn [decode_loop]. by rewrite app_nil_r.
  - cbn [decode_loop].
    assert (Hl : length (take 8 (drop (length data / 8 * 8) data)) <> 8).
    { rewrite length_take, length_drop. lia. }
    destruct (Nat.eqb_spec
                (length (take 8 (drop (length data / 8 * 8) data))) 8)
      as [E | _]; [done |].
    rewrite take_ge; [reflexivity |]. rewrite length_drop. lia.
Qed.

End Decode.

(** C9. For every image whose least-significant-bit stream nowhere
    contains the terminator, the scan reads every pixel, nothing is raised,
    and [extract_data] returns the text decoded from all the extracted bits
    after printing the stop-signal warning. *)
Theorem extract_data_no_terminator (stego : image) :
  ~ occurs (to_binary STOP_SIGNAL) (lsb_stream (getdata stego)) ->
  scan_loop (to_binary STOP_SIGNAL) (getdata stego) []
    = lsb_stream (getdata stego)
  /\ extract_data stego
     = (Some (decoded (lsb_stream (getdata stego))),
        WarnStopSignal :: incomplete_warning (lsb_stream (getdata stego))).
Proof.
  intros Hno.
  pose proof (scan_loop_no_stop _ _ Hno) as Hscan.
  split; [exact Hscan |].
  unfold extract_data, strip_stop. rewrite Hscan.
  destruct (str_in (to_binary STOP_SIGNAL) (lsb_stream (getdata stego)))
    eqn:Hin.
  - exfalso. apply Hno. by apply str_in_spec.
  - apply decode_binary, lsb_stream_bits.
Qed.

Lemma extract_data_no_terminator_witness :
  ~ occurs (to_binary STOP_SIGNAL) (lsb_stream (getdata cover10))
  /\ scan_loop (to_binary STOP_SIGNAL) (getdata cover10) []
     = lsb_stream (getdata cover10)
  /\ extract_data cover10
     = (Some (decoded (lsb_stream (getdata cover10))),
        WarnStopSignal :: incomplete_warning (lsb_stream (getdata cover10))).
Proof.
  assert (H : ~ occurs (to_binary STOP_SIGNAL) (lsb_stream (getdata cover10))).
  { intros Hocc. apply str_in_spec in Hocc. vm_compute in Hocc. discriminate. }
  split; [exact H |]. exact (extract_data_no_terminator cover10 H).
Defined.

(** On the all-black 10x10 cover 37 NUL characters come back, with
    both warnings. *)
Example extract_data_cover10 :
  extract_data cover10
  = (Some (replicate 37 0%N),
     [WarnStopSignal; WarnIncompleteByte ["0"; "0"; "0"; "0"]]).
Proof. vm_compute. reflexivity. Qed.

(** C10. Whatever the image and the pattern, the string accumulated by the
    scan when it stops is the bit stream of a whole number [j] of pixels:
    its length is [3 * j], a multiple of 3. *)
Theorem scan_loop_whole_pixels (stop : list ascii) (stego : image) :
  exists j,
    j <= length (getdata stego)
    /\ scan_loop stop (getdata stego) [] = lsb_stream (take j (getdata stego))
    /\ length (scan_loop stop (getdata stego) []) = 3 * j
    /\ length (scan_loop stop (getdata stego) []) mod 3 = 0.
Proof.
  destruct (scan_loop_first_match stop (getdata stego) [])
    as (j & Hj & E & _ & _).
  simpl in E. exists j. split; [exact Hj |]. split; [exact E |].
  assert (Hl : length (scan_loop stop (getdata stego) []) = 3 * j).
  { rewrite E, length_lsb_stream, length_take. lia. }
  split; [exact Hl |]. rewrite Hl, Nat.mul_comm. apply Nat.Div0.mod_mul.
Qed.

(** ** Messages of more than one byte per character *)

(** C2 at the message of code point 300 followed by ["hi"], in the 10x10
    cover.  No error is raised: [to_binary] writes code point 300 as 9
    characters, not 8, the 129 bits are embedded (43 whole pixels) and a
    stego image is saved.  Extraction, which reads 8 bits per character,
    then returns the three characters 150, ["4"], ["4"] and the
    incomplete-byte warning instead of the message. *)
Theorem hide_data_code_point_300 :
  to_binary [300%N] = ["1"; "0"; "0"; "1"; "0"; "1"; "1"; "0"; "0"]
  /\ length (binary_of wide_hi) = 129
  /\ hide_data cover10 wide_hi = Saved stego_wide_hi
  /\ take 129 (lsb_stream (getdata stego_wide_hi)) = binary_of wide_hi
  /\ extract_data stego_wide_hi
     = (Some [150; 52; 52]%N, [WarnIncompleteByte ["1"]]).
Proof. repeat split; vm_compute; reflexivity. Qed.

(** ** The round trip on a message whose terminator ends inside a pixel *)

(** C1 at the printable message ["a"] and the 10x10 cover (capacity 300,
    112 bits needed): embedding succeeds, but extraction returns ["a"], the
    terminator text and ten NUL characters, with the incomplete-byte
    warning. *)
Theorem roundtrip_a_cover10 :
  printable 97%N
  /\ (length [97%N] + length STOP_SIGNAL) * 8
     <= width cover10 * height cover10 * 3
  /\ hide_data cover10 [97%N] = Saved stego_a
  /\ extract_data stego_a
     = (Some ([97%N] ++ STOP_SIGNAL ++ replicate 10 0%N),
        [WarnIncompleteByte ["0"; "0"; "0"; "0"]])
  /\ extract_data stego_a <> (Some [97%N], []).
Proof.
  split; [unfold printable; lia |].
  split; [vm_compute; lia |].
  split; [vm_compute; reflexivity |].
  assert (E : extract_data stego_a
              = (Some ([97%N] ++ STOP_SIGNAL ++ replicate 10 0%N),
                 [WarnIncompleteByte ["0"; "0"; "0"; "0"]])).
  { vm_compute. reflexivity. }
  split; [exact E |]. rewrite E. discriminate.
Qed.

(** C7 on the same image: the terminator's last bit is the 112th one read,
    the first channel of pixel 38.  A test after that bit would succeed;
    the test after pixel 38 (114 bits) fails, and the scan goes on to the
    last pixel. *)
Theorem scan_misses_terminator :
  take 112 (lsb_stream (getdata stego_a)) = binary_of [97%N]
  /\ match_at (to_binary STOP_SIGNAL) (take 112 (lsb_stream (getdata stego_a)))
     = true
  /\ match_at (to_binary STOP_SIGNAL) (lsb_stream (take 38 (getdata stego_a)))
     = false
  /\ scan_loop (to_binary STOP_SIGNAL) (getdata stego_a) []
     = lsb_stream (getdata stego_a)
  /\ length (scan_loop (to_binary STOP_SIGNAL) (getdata stego_a) []) = 300.
Proof. repeat split; vm_compute; reflexivity. Qed.

(** C8 on the same image: the terminator occurs in the scanned string, first
    at offset 8, so the bits before it are the 8 bits of ["a"]; the code
    keeps the first 196 bits instead. *)
Theorem strip_stop_keeps_terminator :
  str_in (to_binary STOP_SIGNAL) scanned_a = true
  /\ scanned_a = to_binary [97%N] ++ to_binary STOP_SIGNAL ++ drop 112 scanned_a
  /\ str_in (to_binary STOP_SIGNAL) (take 111 scanned_a) = false
  /\ strip_stop (to_binary STOP_SIGNAL) scanned_a = (take 196 scanned_a, [])
  /\ take 196 scanned_a <> to_binary [97%N].
Proof.
  repeat split; try (vm_compute; reflexivity).
  intros H. apply (f_equal length) in H. vm_compute in H. discriminate.
Qed.

(** ** When the round trip does hold *)

Section RoundTrip.

Lemma bin_last_set_lsb (x : Z) (c : ascii) :
  is_bit c -> bin_last (Z.lor (Z.land x 254) (bit_val c)) = c.
Proof.
  intros Hc. rewrite bin_last_odd, <- Z.bit0_odd, Z.lor_spec, Z.land_spec.
  change (Z.testbit 254 0) with false. rewrite andb_false_r.
  destruct Hc as [-> | ->]; reflexivity.
Qed.

(** Reading back the least-significant bits of the written channels gives
    the bits, then the cover's own bits. *)
Lemma lsb_embed_channels (bits : list ascii) :
  Forall is_bit bits ->
  forall chans,
    length bits <= length chans ->
    map bin_last (embed_channels bits chans)
    = bits ++ map bin_last (drop (length bits) chans).
Proof.
  induction 1 as [| c bits Hc _ IH]; intros chans Hlen; [reflexivity |].
  destruct chans as [| x chans]; [simpl in Hlen; lia |].
  cbn [embed_channels map length drop app]. simpl in Hlen.
  rewrite (bin_last_set_lsb x c Hc), IH by lia. reflexivity.
Qed.

Lemma lsb_stream_take (ps : list pixel) :
  forall j, lsb_stream (take j ps) = take (3 * j) (lsb_stream ps).
Proof.
  induction ps as [| [[r g] b] ps IH]; intros [| j]; try reflexivity.
  replace (3 * S j) with (S (S (S (3 * j)))) by lia.
  change (lsb_stream (take (S j) ((r, g, b) :: ps)))
    with (bin_last r :: bin_last g :: bin_last b :: lsb_stream (take j ps)).
  change (lsb_stream ((r, g, b) :: ps))
    with (bin_last r :: bin_last g :: bin_last b :: lsb_stream ps).
  cbn [firstn]. by rewrite IH.
Qed.

Lemma match_at_suffix (stop a : list ascii) : match_at stop (a ++ stop) = true.
Proof.
  unfold match_at, suffix_of. rewrite length_app. apply andb_true_iff. split.
  - apply Nat.leb_le. lia.
  - apply bool_decide_eq_true_2, drop_app_length'. lia.
Qed.

Lemma bits_value_big_endian (c : N) :
  (c <= 255)%N -> bits_value (big_endian_byte c) = c.
Proof.
  intros Hc. destruct c as [| p]; [reflexivity |].
  do 8 (try destruct p as [p | p |]); try reflexivity; lia.
Qed.

Lemma decoded_groups (m : list N) :
  Forall (fun c => (c <= 255)%N) m ->
  map (fun j => bits_value (take 8 (drop (j * 8) (to_binary m))))
      (seq 0 (length m))
  = m.
Proof.
  induction 1 as [| c m Hc _ IH]; [reflexivity |].
  change (to_binary (c :: m)) with (format_08b c ++ to_binary m).
  rewrite (format_08b_byte c Hc).
  cbn [length seq map]. f_equal.
  - rewrite drop_0, take_app_length' by reflexivity.
    by apply bits_value_big_endian.
  - rewrite <- fmap_S_seq, <- list_fmap_compose.
    etransitivity; [| exact IH]. apply list_fmap_ext. intros _ j _.
    cbn [compose]. do 2 f_equal.
Qed.

Lemma decoded_to_binary (m : list N) :
  Forall (fun c => (c <= 255)%N) m -> decoded (to_binary m) = m.
Proof.
  intros Hm. unfold decoded. rewrite (to_binary_length m Hm).
  rewrite Nat.mul_comm, Nat.div_mul by lia. by apply decoded_groups.
Qed.

(** The round trip holds for a message of single-byte characters when the
    terminator ends on a pixel boundary (the bit length is a multiple of 3)
    and the per-pixel suffix test does not succeed earlier. *)
Lemma hide_extract_aligned (img : image) (m : list N) :
  length (getdata img) = width img * height img ->
  Forall (fun c => (c <= 255)%N) m ->
  length (binary_of m) <= width img * height img * 3 ->
  length (binary_of m) mod 3 = 0 ->
  (forall j, 0 < 3 * j < length (binary_of m) ->
     match_at (to_binary STOP_SIGNAL) (take (3 * j) (binary_of m)) = false) ->
  exists stego,
    hide_data img m = Saved stego /\ extract_data stego = (Some m, []).
Proof.
  intros Hsize Hm Hfit Hal Hearly.
  destruct (hide_data_cases img m) as [[_ (px & E & Hch & Hl)] | [Hbig _]];
    [| lia].
  eexists. split; [exact E |].
  set (stop := to_binary STOP_SIGNAL) in *.
  set (bits := binary_of m) in *.
  assert (Hstream :
            lsb_stream px
            = bits ++ map bin_last
                          (drop (length bits) (channels (getdata img)))).
  { unfold lsb_stream. rewrite Hch. apply lsb_embed_channels.
    - apply binary_of_bits.
    - rewrite length_channels. lia. }
  assert (Hpre : forall j, 3 * j <= length bits ->
                   lsb_stream (take j px) = take (3 * j) bits).
  { intros j Hj. rewrite lsb_stream_take, Hstream. by apply take_app_le. }
  assert (Hlen : length bits = 3 * (length bits / 3)).
  { pose proof (Nat.div_mod_eq (length bits) 3). lia. }
  assert (Hstop : length stop = 104) by reflexivity.
  assert (Hbl : length bits = length (to_binary m) + 104).
  { unfold bits, binary_of. by rewrite length_app. }
  assert (Hscan : scan_loop stop px [] = bits).
  { destruct (scan_loop_first_match stop px [])
      as (j & Hj & Es & Hbefore & Hend).
    simpl in Es, Hbefore, Hend.
    assert (HJ : match_at stop (lsb_stream (take (length bits / 3) px)) = true).
    { rewrite Hpre by lia. rewrite <- Hlen, take_ge by lia.
      apply match_at_suffix. }
    destruct (Nat.lt_trichotomy j (length bits / 3)) as [Hlt | [-> | Hgt]].
    - exfalso. destruct Hend as [-> | Hmatch]; [lia |].
      rewrite Hpre in Hmatch by lia.
      destruct (decide (j = 0)) as [-> | Hj0].
      + vm_compute in Hmatch. discriminate.
      + rewrite Hearly in Hmatch by lia. discriminate.
    - rewrite Es, Hpre by lia. rewrite <- Hlen. by apply take_ge.
    - exfalso. rewrite Hbefore in HJ by lia. discriminate. }
  unfold extract_data, strip_stop. fold stop. cbn [getdata]. rewrite Hscan.
  assert (Hin : str_in stop bits = true).
  { apply str_in_spec. exists (to_binary m), []. by rewrite app_nil_r. }
  rewrite Hin, Hstop.
  replace (take (length bits - 104) bits) with (to_binary m).
  2:{ rewrite Hbl. unfold bits, binary_of.
      rewrite take_app_length'; [reflexivity | lia]. }
  rewrite decode_binary by apply to_binary_bits.
  rewrite (decoded_to_binary m Hm). unfold incomplete_warning.
  rewrite (to_binary_length m Hm), Nat.mul_comm, Nat.Div0.mod_mul. reflexivity.
Qed.

End RoundTrip.

(** The scenario of the 10x10 cover and ["hi"]: 120 bits, 40 whole pixels;
    the message comes back without a warning. *)
Example roundtrip_hi_cover10 :
  exists stego,
    hide_data cover10 [104; 105]%N = Saved stego
    /\ extract_data stego = (Some [104; 105]%N, []).
Proof. eexists. split; vm_compute; reflexivity. Qed.

(** ** What extraction returns in general *)

Section ExtractFacts.

Lemma scan_loop_bits (stop : list ascii) (px : list pixel) :
  Forall is_bit (scan_loop stop px []).
Proof.
  destruct (scan_loop_first_match stop px []) as (j & _ & E & _).
  rewrite E. apply lsb_stream_bits.
Qed.

Lemma scan_loop_length (stop : list ascii) (px : list pixel) :
  length (scan_loop stop px []) <= 3 * length px.
Proof.
  destruct (scan_loop_first_match stop px []) as (j & Hj & E & _).
  rewrite E. simpl. rewrite length_lsb_stream, length_take. lia.
Qed.

Lemma strip_stop_bits (stop data : list ascii) :
  Forall is_bit data -> Forall is_bit (strip_stop stop data).1.
Proof.
  intros Hd. unfold strip_stop. destruct (str_in stop data); simpl;
    [by apply Forall_take | exact Hd].
Qed.

Lemma strip_stop_length (stop data : list ascii) :
  length (strip_stop stop data).1 <= length data.
Proof.
  unfold strip_stop. destruct (str_in stop data); simpl;
    [rewrite length_take; lia | lia].
Qed.

(** [extract_data] in one equation: the text of the complete 8-bit groups
    of the payload, and the warnings of the two stages. *)
Lemma extract_data_decoded (stego : image) :
  extract_data stego
  = (Some (decoded
             (strip_stop (to_binary STOP_SIGNAL)
                (scan_loop (to_binary STOP_SIGNAL) (getdata stego) [])).1),
     (strip_stop (to_binary STOP_SIGNAL)
        (scan_loop (to_binary STOP_SIGNAL) (getdata stego) [])).2
     ++ incomplete_warning
          (strip_stop (to_binary STOP_SIGNAL)
             (scan_loop (to_binary STOP_SIGNAL) (getdata stego) [])).1).
Proof.
  unfold extract_data.
  pose proof (strip_stop_bits (to_binary STOP_SIGNAL) _
                (scan_loop_bits (to_binary STOP_SIGNAL) (getdata stego)))
    as Hbits.
  destruct (strip_stop (to_binary STOP_SIGNAL)
              (scan_loop (to_binary STOP_SIGNAL) (getdata stego) []))
    as [payload log].
  simpl in *. by apply decode_binary.
Qed.

Lemma decoded_bytes (data : list ascii) :
  Forall (fun c => (c <= 255)%N) (decoded data).
Proof.
  unfold decoded. apply Forall_map, Forall_forall. intros j _. simpl.
  pose proof (bits_value_bound (take 8 (drop (j * 8) data)) 0%N) as Hb.
  fold (bits_value (take 8 (drop (j * 8) data))) in Hb.
  assert (Hl : length (take 8 (drop (j * 8) data)) <= 8).
  { rewrite length_take. lia. }
  assert (Hp : (2 ^ N.of_nat (length (take 8 (drop (j * 8) data)))
                <= 2 ^ 8)%N).
  { apply N.pow_le_mono_r; lia. }
  change (2 ^ 8)%N with 256%N in Hp. lia.
Qed.

Lemma extract_data_bytes (stego : image) (text : list N) :
  (extract_data stego).1 = Some text -> Forall (fun c => (c <= 255)%N) text.
Proof.
  rewrite extract_data_decoded. simpl. intros [= <-]. apply decoded_bytes.
Qed.

Lemma length_decoded (data : list ascii) :
  length (decoded data) = length data / 8.
Proof. unfold decoded. by rewrite length_map, length_seq. Qed.

Lemma wide_not_bytes (m : list N) :
  Exists (fun c => (255 < c)%N) m -> ~ Forall (fun c => (c <= 255)%N) m.
Proof.
  intros Hex Hall. apply Exists_exists in Hex as (c & Hin & Hc).
  rewrite Forall_forall in Hall. specialize (Hall c Hin). simpl in Hall. lia.
Qed.

Lemma incomplete_warning_to_binary (m : list N) :
  Forall (fun c => (c <= 255)%N) m -> incomplete_warning (to_binary m) = [].
Proof.
  intros Hm. unfold incomplete_warning.
  by rewrite (to_binary_length m Hm), Nat.mul_comm, Nat.Div0.mod_mul.
Qed.

End ExtractFacts.

(** X1. Once an image is at hand, extraction returns a text: the decoding
    loop never raises, so [None] is never returned and the decoding error is
    never printed. *)
Theorem extract_data_returns_text (stego : image) :
  exists text log,
    extract_data stego = (Some text, log) /\ ErrorDecoding ∉ log.
Proof.
  rewrite extract_data_decoded. eexists _, _. split; [reflexivity |].
  unfold strip_stop, incomplete_warning.
  destruct (str_in _ _); destruct (_ =? 0); simpl;
    intros Hin; repeat (apply elem_of_cons in Hin as [Hin | Hin];
                        [discriminate |]);
    by apply elem_of_nil in Hin.
Qed.

(** X2. Every character of an extracted text has a code point of at most
    255, and the text has at most one character per 8 channels of the
    image. *)
Theorem extract_data_single_byte (stego : image) (text : list N) :
  (extract_data stego).1 = Some text ->
  Forall (fun c => (c <= 255)%N) text
  /\ 8 * length text <= 3 * length (getdata stego).
Proof.
  intros Htext. split; [by apply (extract_data_bytes stego) |].
  revert Htext. rewrite extract_data_decoded. simpl. intros [= <-].
  rewrite length_decoded.
  pose proof (strip_stop_length (to_binary STOP_SIGNAL)
                (scan_loop (to_binary STOP_SIGNAL) (getdata stego) [])) as H1.
  pose proof (scan_loop_length (to_binary STOP_SIGNAL) (getdata stego)) as H2.
  pose proof (Nat.Div0.mul_div_le
                (length (strip_stop (to_binary STOP_SIGNAL)
                           (scan_loop (to_binary STOP_SIGNAL)
                              (getdata stego) [])).1) 8) as H3.
  lia.
Qed.

Lemma extract_data_single_byte_witness :
  Forall (fun c => (c <= 255)%N) [104; 105]%N
  /\ 8 * length [104; 105]%N <= 3 * length (getdata stego_hi).
Proof.
  apply (extract_data_single_byte stego_hi [104; 105]%N).
  vm_compute. reflexivity.
Defined.

(** X3. A message with a code point above 255 is never recovered: whatever
    the cover, extraction from its stego image returns another text. *)
Theorem wide_message_not_recovered (img stego : image) (m : list N) :
  Exists (fun c => (255 < c)%N) m ->
  hide_data img m = Saved stego ->
  (extract_data stego).1 <> Some m.
Proof.
  intros Hwide _ Hback.
  apply (wide_not_bytes m Hwide).
  by apply (extract_data_bytes stego).
Qed.

Lemma wide_message_not_recovered_witness :
  (extract_data
     (Image 10 10
        match embed_bits (binary_of [300%N]) (getdata cover10) with
        | Some px => px
        | None => []
        end)).1
  <> Some [300%N].
Proof.
  apply (wide_message_not_recovered cover10 _ [300%N]).
  - apply Exists_cons_hd. lia.
  - vm_compute. reflexivity.
Defined.

(** X4. The decoding loop inverts [to_binary] on single-byte text: it
    returns the text and prints nothing. *)
Theorem decode_to_binary (m : list N) (log : list printed) :
  Forall (fun c => (c <= 255)%N) m ->
  decode (to_binary m) log = (Some m, log).
Proof.
  intros Hm. rewrite decode_binary by apply to_binary_bits.
  by rewrite (decoded_to_binary m Hm), (incomplete_warning_to_binary m Hm),
       app_nil_r.
Qed.

Lemma decode_to_binary_witness :
  decode (to_binary [104; 105; 0; 255]%N) [] = (Some [104; 105; 0; 255]%N, []).
Proof.
  apply (decode_to_binary [104; 105; 0; 255]%N []).
  repeat constructor; lia.
Defined.

(** ** What embedding leaves in the image *)

Section Overwrite.

Lemma clear_set_bit (x : Z) (c1 c2 : ascii) :
  Z.lor (Z.land (Z.lor (Z.land x 254) (bit_val c1)) 254) (bit_val c2)
  = Z.lor (Z.land x 254) (bit_val c2).
Proof.
  rewrite Z.land_lor_distr_l, <- Z.land_assoc.
  change (Z.land 254 254) with 254%Z.
  assert (H0 : Z.land (bit_val c1) 254 = 0%Z).
  { unfold bit_val. by destruct (Ascii.eqb c1 "1"). }
  by rewrite H0, Z.lor_0_r.
Qed.

(** Writing a string over a shorter or equally long one leaves no trace of
    the earlier string. *)
Lemma embed_channels_overwrite (b1 : list ascii) :
  forall b2 chans,
    length b1 <= length b2 ->
    embed_channels b2 (embed_channels b1 chans) = embed_channels b2 chans.
Proof.
  induction b1 as [| c1 b1 IH]; intros b2 chans Hlen; [reflexivity |].
  destruct b2 as [| c2 b2]; [simpl in Hlen; lia |].
  destruct chans as [| x chans]; [reflexivity |].
  cbn [embed_channels]. rewrite clear_set_bit, IH; [reflexivity |].
  simpl in Hlen. lia.
Qed.

Lemma channels_inj (a : list pixel) :
  forall b, channels a = channels b -> a = b.
Proof.
  induction a as [| [[r g] b0] a IH]; intros [| [[r' g'] b0'] b] H.
  - reflexivity.
  - discriminate.
  - discriminate.
  - change (r :: g :: b0 :: channels a = r' :: g' :: b0' :: channels b) in H.
    injection H as -> -> -> H. f_equal. by apply IH.
Qed.

Lemma lsb_stream_stego (img : image) (m : list N) (px : list pixel) :
  length (binary_of m) <= 3 * length (getdata img) ->
  channels px = embed_channels (binary_of m) (channels (getdata img)) ->
  lsb_stream px
  = binary_of m ++ drop (length (binary_of m)) (lsb_stream (getdata img)).
Proof.
  intros Hfit Hch. unfold lsb_stream. rewrite Hch, lsb_embed_channels.
  - by rewrite <- skipn_map.
  - apply binary_of_bits.
  - by rewrite length_channels.
Qed.

End Overwrite.

(** X5. Read back in scan order, the least-significant bits of a saved
    stego image are the message bits, the terminator bits, and then the
    cover's own bits from that position on. *)
Theorem stego_lsb_stream (img stego : image) (m : list N) :
  length (getdata img) = width img * height img ->
  hide_data img m = Saved stego ->
  lsb_stream (getdata stego)
  = to_binary m ++ to_binary STOP_SIGNAL
    ++ drop (length (binary_of m)) (lsb_stream (getdata img)).
Proof.
  intros Hsize Hsaved.
  destruct (hide_data_cases img m) as [[Hfit (px & E & Hch & _)] | [_ E]];
    rewrite E in Hsaved; [| discriminate].
  injection Hsaved as <-. cbn [getdata].
  rewrite (lsb_stream_stego img m px) by (rewrite ?Hsize; lia || exact Hch).
  unfold binary_of at 1. by rewrite <- app_assoc.
Qed.

Lemma stego_lsb_stream_witness :
  lsb_stream (getdata stego_a)
  = to_binary [97%N] ++ to_binary STOP_SIGNAL
    ++ drop (length (binary_of [97%N])) (lsb_stream (getdata cover10)).
Proof.
  apply (stego_lsb_stream cover10 stego_a [97%N]).
  - reflexivity.
  - vm_compute. reflexivity.
Defined.

(** X6. On a well-formed cover the saved stego image is well formed too:
    the cover's width and height, one pixel per position, and every
    channel in 0..255. *)
Theorem hide_data_saved_ok (img stego : image) (m : list N) :
  image_ok img ->
  hide_data img m = Saved stego ->
  width stego = width img
  /\ height stego = height img
  /\ length (getdata stego) = width stego * height stego
  /\ Forall pixel_ok (getdata stego).
Proof.
  intros Hok Hsaved.
  destruct (hide_data_stego_ok img stego m Hok Hsaved)
    as ([Hsize Hpx] & Hw & Hh & _).
  auto.
Qed.

Lemma cover10_ok : image_ok cover10.
Proof.
  split; [reflexivity |].
  apply Forall_forall. intros p Hp.
  apply elem_of_replicate in Hp as [-> _].
  repeat split; lia.
Qed.

Lemma hide_data_saved_ok_witness :
  width stego_a = width cover10
  /\ height stego_a = height cover10
  /\ length (getdata stego_a) = width stego_a * height stego_a
  /\ Forall pixel_ok (getdata stego_a).
Proof.
  apply (hide_data_saved_ok cover10 stego_a [97%N]).
  - exact cover10_ok.
  - vm_compute. reflexivity.
Defined.

(** X7. Hiding a message in a stego image whose own message was not
    longer gives the very result of hiding it in the original cover: the
    earlier message leaves no trace. *)
Theorem hide_data_overwrite (img stego : image) (m1 m2 : list N) :
  hide_data img m1 = Saved stego ->
  length (binary_of m1) <= length (binary_of m2) ->
  hide_data stego m2 = hide_data img m2.
Proof.
  intros Hsaved Hlen.
  destruct (hide_data_cases img m1) as [[_ (px1 & E1 & Hch1 & _)] | [_ E1]];
    rewrite E1 in Hsaved; [| discriminate].
  injection Hsaved as <-.
  destruct (hide_data_cases (Image (width img) (height img) px1) m2)
    as [[Hfit (px & E & Hch & _)] | [Hbig E]];
    destruct (hide_data_cases img m2)
      as [[Hfit' (px' & E' & Hch' & _)] | [Hbig' E']];
    cbn [width height getdata] in *; try lia.
  - rewrite E, E'. do 2 f_equal. apply channels_inj.
    rewrite Hch, Hch', Hch1. by apply embed_channels_overwrite.
  - by rewrite E, E'.
Qed.

Lemma hide_data_overwrite_witness :
  hide_data stego_a [104; 105]%N = hide_data cover10 [104; 105]%N.
Proof.
  apply (hide_data_overwrite cover10 stego_a [97%N] [104; 105]%N).
  - vm_compute. reflexivity.
  - vm_compute. lia.
Defined.

(** X8. For a message of single-byte characters, hiding succeeds exactly
    when 8 bits per character and the 104 terminator bits fit in three
    bits per pixel. *)
Theorem hide_data_capacity_chars (img : image) (m : list N) :
  Forall (fun c => (c <= 255)%N) m ->
  (exists stego, hide_data img m = Saved stego)
  <-> 8 * length m + 104 <= width img * height img * 3.
Proof.
  intros Hm.
  assert (Hl : length (binary_of m) = 8 * length m + 104).
  { unfold binary_of. by rewrite length_app, (to_binary_length m Hm). }
  destruct (hide_data_cases img m) as [[Hfit (px & E & _)] | [Hbig E]];
    rewrite E; split.
  - intros _. lia.
  - intros _. by eexists.
  - intros [stego Hs]. discriminate.
  - lia.
Qed.

Lemma hide_data_capacity_chars_witness :
  (exists stego, hide_data cover10 [104; 105]%N = Saved stego)
  <-> 8 * length [104; 105]%N + 104 <= width cover10 * height cover10 * 3.
Proof.
  apply (hide_data_capacity_chars cover10 [104; 105]%N).
  repeat constructor; lia.
Defined.

(** ** Where the scan stops *)

Section ScanStop.

Variable stop : list ascii.

(** Pixels that follow a successful suffix test are not read. *)
Lemma scan_loop_app_match (b : list pixel) :
  forall a extracted,
    a <> [] ->
    match_at stop (scan_loop stop a extracted) = true ->
    scan_loop stop (a ++ b) extracted = scan_loop stop a extracted.
Proof.
  induction a as [| [[r g] b0] a IH]; intros acc Hne Hm; [done |].
  cbn [app scan_loop] in *.
  destruct (match_at stop
              (((acc ++ [bin_last r]) ++ [bin_last g]) ++ [bin_last b0]))
    eqn:Hhere; [reflexivity |].
  destruct a as [| p a'].
  - cbn [scan_loop] in Hm. rewrite Hm in Hhere. discriminate.
  - by apply IH.
Qed.

(** The pattern occurs in what was scanned exactly when it occurs in the
    whole bit stream of the image. *)
Lemma scanned_occurs_iff (px : list pixel) :
  occurs stop (scan_loop stop px []) <-> occurs stop (lsb_stream px).
Proof.
  destruct (scan_loop_first_match stop px []) as (j & Hj & E & _ & Hend).
  rewrite E. simpl in *. split.
  - intros Hocc. rewrite <- (take_drop j px), lsb_stream_app.
    by apply occurs_prefix.
  - intros Hocc. destruct Hend as [-> | Hm].
    + by rewrite take_ge.
    + by apply match_at_occurs.
Qed.

Lemma no_match_upto_spec (bits : list ascii) (n : nat) :
  no_match_upto stop bits n = true ->
  forall j, 0 < j <= n -> match_at stop (take (3 * j) bits) = false.
Proof.
  unfold no_match_upto. rewrite forallb_forall. intros Hall j Hj.
  apply negb_true_iff, Hall, in_seq. lia.
Qed.

End ScanStop.

(** X9. The scan returns the bit stream of the first [j] pixels, where [j]
    is the first pixel count at which the accumulated string ends with the
    pattern, or the number of pixels when there is no such count. *)
Theorem scan_loop_stops_at_first_match (stop : list ascii) (px : list pixel) :
  exists j,
    j <= length px
    /\ scan_loop stop px [] = lsb_stream (take j px)
    /\ (forall j', 0 < j' < j ->
          match_at stop (lsb_stream (take j' px)) = false)
    /\ (j = length px \/ match_at stop (lsb_stream (take j px)) = true).
Proof.
  destruct (scan_loop_first_match stop px []) as (j & Hj & E & Hb & Hend).
  exists j. simpl in *. auto.
Qed.

(** X10. Once the suffix test has succeeded on a sequence of pixels,
    whatever pixels follow them, and whatever the declared size, the result
    of extraction is the same. *)
Theorem extract_data_ignores_rest (w h w' h' : nat) (px rest : list pixel) :
  match_at (to_binary STOP_SIGNAL) (scan_loop (to_binary STOP_SIGNAL) px [])
  = true ->
  extract_data (Image w h (px ++ rest)) = extract_data (Image w' h' px).
Proof.
  intros Hm. unfold extract_data. cbn [getdata].
  rewrite scan_loop_app_match; [reflexivity | | exact Hm].
  intros ->. vm_compute in Hm. discriminate.
Qed.

Lemma extract_data_ignores_rest_witness :
  extract_data (Image 41 1 (take 40 (getdata stego_hi) ++ [white]))
  = extract_data (Image 8 5 (take 40 (getdata stego_hi))).
Proof.
  apply (extract_data_ignores_rest 41 1 8 5 (take 40 (getdata stego_hi))
           [white]).
  vm_compute. reflexivity.
Defined.

(** X11. The stop-signal warning is printed exactly when the terminator
    occurs nowhere in the bit stream of the whole image. *)
Theorem stop_warning_iff_absent (stego : image) :
  WarnStopSignal ∈ (extract_data stego).2
  <-> ~ occurs (to_binary STOP_SIGNAL) (lsb_stream (getdata stego)).
Proof.
  rewrite extract_data_decoded. cbn [snd].
  rewrite <- scanned_occurs_iff, <- str_in_spec, elem_of_app.
  assert (Hinc : forall d, WarnStopSignal ∉ incomplete_warning d).
  { intros d Hin. unfold incomplete_warning in Hin.
    destruct (_ =? 0); [by apply elem_of_nil in Hin |].
    apply elem_of_cons in Hin as [Hin | Hin]; [discriminate |].
    by apply elem_of_nil in Hin. }
  unfold strip_stop.
  destruct (str_in _ _); cbn [fst snd]; split.
  - intros [Hin | Hin]; [by apply elem_of_nil in Hin | by apply Hinc in Hin].
  - intros Hno. by destruct Hno.
  - intros _. discriminate.
  - intros _. left. apply elem_of_cons. by left.
Qed.

(** ** The round trip, with its conditions *)

Section Aligned.

(** Extraction from a bit stream that starts with a single-byte text and
    the terminator, when the terminator ends on a pixel boundary and the
    suffix test does not succeed before it. *)
Lemma extract_data_aligned_prefix (stego : image) (a : list N)
    (rest : list ascii) :
  Forall (fun c => (c <= 255)%N) a ->
  lsb_stream (getdata stego) = binary_of a ++ rest ->
  (8 * length a + 104) mod 3 = 0 ->
  (forall j, 0 < 3 * j < 8 * length a + 104 ->
     match_at (to_binary STOP_SIGNAL) (take (3 * j) (binary_of a)) = false) ->
  extract_data stego = (Some a, []).
Proof.
  intros Ha Hstream Hal Hearly.
  set (stop := to_binary STOP_SIGNAL) in *.
  set (bits := binary_of a) in *.
  set (px := getdata stego) in *.
  assert (Hbl : length bits = 8 * length a + 104).
  { unfold bits, binary_of. by rewrite length_app, (to_binary_length a Ha). }
  assert (Hpx : length bits <= 3 * length px).
  { rewrite <- length_lsb_stream, Hstream, length_app. apply Nat.le_add_r. }
  assert (Hpre : forall j, 3 * j <= length bits ->
                   lsb_stream (take j px) = take (3 * j) bits).
  { intros j Hj. rewrite lsb_stream_take, Hstream. by apply take_app_le. }
  assert (Hlen : length bits = 3 * (length bits / 3)).
  { rewrite Hbl. pose proof (Nat.div_mod_eq (8 * length a + 104) 3). lia. }
  assert (Hscan : scan_loop stop px [] = bits).
  { destruct (scan_loop_first_match stop px [])
      as (j & Hj & Es & Hbefore & Hend).
    simpl in Es, Hbefore, Hend.
    assert (HJ : match_at stop (lsb_stream (take (length bits / 3) px)) = true).
    { rewrite Hpre by lia. rewrite <- Hlen, take_ge by lia.
      apply match_at_suffix. }
    destruct (Nat.lt_trichotomy j (length bits / 3)) as [Hlt | [-> | Hgt]].
    - exfalso. destruct Hend as [-> | Hmatch]; [lia |].
      rewrite Hpre in Hmatch by lia.
      destruct (decide (j = 0)) as [-> | Hj0].
      + vm_compute in Hmatch. discriminate.
      + rewrite Hearly in Hmatch by lia. discriminate.
    - rewrite Es, Hpre by lia. rewrite <- Hlen. by apply take_ge.
    - exfalso. rewrite Hbefore in HJ by lia. discriminate. }
  unfold extract_data. fold stop px. rewrite Hscan.
  unfold bits, binary_of. fold stop. rewrite strip_stop_suffix.
  rewrite decode_binary by apply to_binary_bits.
  by rewrite (decoded_to_binary a Ha), (incomplete_warning_to_binary a Ha).
Qed.

End Aligned.

(** X13. A message that contains the stop-signal text is cut there: when
    the text before it, with one terminator, ends on a pixel boundary and
    the suffix test does not succeed earlier, extraction returns only that
    text, without a warning. *)
Theorem extract_data_cut_at_stop_text (img stego : image) (a b : list N) :
  length (getdata img) = width img * height img ->
  Forall (fun c => (c <= 255)%N) a ->
  hide_data img (a ++ STOP_SIGNAL ++ b) = Saved stego ->
  (8 * length a + 104) mod 3 = 0 ->
  (forall j, 0 < 3 * j < 8 * length a + 104 ->
     match_at (to_binary STOP_SIGNAL) (take (3 * j) (binary_of a)) = false) ->
  extract_data stego = (Some a, []).
Proof.
  intros Hsize Ha Hsaved Hal Hearly.
  destruct (hide_data_cases img (a ++ STOP_SIGNAL ++ b))
    as [[Hfit (px & E & Hch & _)] | [_ E]];
    rewrite E in Hsaved; [| discriminate].
  injection Hsaved as <-.
  eapply extract_data_aligned_prefix; [exact Ha | | exact Hal | exact Hearly].
  cbn [getdata].
  rewrite (lsb_stream_stego img (a ++ STOP_SIGNAL ++ b) px)
    by (rewrite ?Hsize; lia || exact Hch).
  unfold binary_of at 1. rewrite !to_binary_app.
  unfold binary_of. rewrite <- !app_assoc. reflexivity.
Qed.

Lemma extract_data_cut_at_stop_text_witness :
  extract_data stego_hi_stop_x = (Some [104; 105]%N, []).
Proof.
  apply (extract_data_cut_at_stop_text cover10 stego_hi_stop_x
           [104; 105]%N [120]%N).
  - reflexivity.
  - repeat constructor; lia.
  - vm_compute. reflexivity.
  - reflexivity.
  - intros j Hj.
    apply (no_match_upto_spec _ _ 39); [vm_compute; reflexivity |].
    simpl in Hj. lia.
Defined.

(** X12. The round trip: for a message of single-byte characters that
    fits, whose bits with the terminator fill whole pixels and on which the
    per-pixel suffix test does not succeed early, extraction from the stego
    image returns the message and prints nothing. *)
Theorem hide_then_extract (img : image) (m : list N) :
  length (getdata img) = width img * height img ->
  Forall (fun c => (c <= 255)%N) m ->
  8 * length m + 104 <= width img * height img * 3 ->
  (8 * length m + 104) mod 3 = 0 ->
  (forall j, 0 < 3 * j < 8 * length m + 104 ->
     match_at (to_binary STOP_SIGNAL) (take (3 * j) (binary_of m)) = false) ->
  exists stego,
    hide_data img m = Saved stego /\ extract_data stego = (Some m, []).
Proof.
  intros Hsize Hm Hfit Hal Hearly.
  assert (Hl : length (binary_of m) = 8 * length m + 104).
  { unfold binary_of. by rewrite length_app, (to_binary_length m Hm). }
  destruct (hide_data_cases img m) as [[_ (px & E & Hch & _)] | [Hbig _]];
    [| lia].
  eexists. split; [exact E |].
  eapply extract_data_aligned_prefix; [exact Hm | | exact Hal | exact Hearly].
  cbn [getdata]. apply (lsb_stream_stego img m px); [| exact Hch].
  rewrite Hsize, Hl. lia.
Qed.

Lemma hide_then_extract_witness :
  exists stego,
    hide_data cover10 [104; 105]%N = Saved stego
    /\ extract_data stego = (Some [104; 105]%N, []).
Proof.
  apply (hide_then_extract cover10 [104; 105]%N).
  - reflexivity.
  - repeat constructor; lia.
  - vm_compute. lia.
  - reflexivity.
  - intros j Hj.
    apply (no_match_upto_spec _ _ 39); [vm_compute; reflexivity |].
    simpl in Hj. lia.
Defined.

(** ** The file level *)


(** X15. [extract_data] on a path returns [None] exactly when
    [load_image] does, that is when the file is missing or does not load;
    and it never saves anything. *)
Theorem extract_data_file_none
    (path_exists : string -> bool) (image_open : string -> option image)
    (stego_image_path : string) :
  ((Files.extract_data_file path_exists image_open stego_image_path).1 = None
   <-> (Files.load_image path_exists image_open stego_image_path).1 = None)
  /\ ((Files.load_image path_exists image_open stego_image_path).1 = None
      <-> path_exists stego_image_path = false
          \/ image_open stego_image_path = None)
  /\ forall q s,
       Files.Save q s
       ∉ (Files.extract_data_file path_exists image_open stego_image_path).2.
Proof.
  unfold Files.extract_data_file, Files.load_image.
  destruct (path_exists stego_image_path); cbn [negb].
  2:{ split; [done |]. split; [by split; auto |].
      intros q s Hin. cbn [snd] in Hin.
      apply elem_of_cons in Hin as [Hin | Hin];
        [discriminate | by apply elem_of_nil in Hin]. }
  destruct (image_open stego_image_path) as [stego |].
  2:{ split; [done |]. split; [by split; auto |].
      intros q s Hin. cbn [snd] in Hin.
      apply elem_of_cons in Hin as [Hin | Hin];
        [discriminate | by apply elem_of_nil in Hin]. }
  rewrite extract_data_decoded. cbn [fst snd app].
  split; [split; discriminate |].
  split; [split; [discriminate | intros [? | ?]; discriminate] |].
  intros q s Hin. apply list_elem_of_fmap in Hin as (pr & Hpr & _).
  discriminate.
Qed.

(** ** Which texts can come back without a warning *)

Section CleanResult.

Lemma occurs_length (pat s : list ascii) :
  occurs pat s -> length pat <= length s.
Proof. intros (a & b & ->). rewrite !length_app. lia. Qed.

Lemma incomplete_warning_nil (data : list ascii) :
  incomplete_warning data = [] -> length data mod 8 = 0.
Proof.
  unfold incomplete_warning.
  destruct (Nat.eqb_spec (length data mod 8) 0); [done | discriminate].
Qed.

(** A result without any warning comes from a scan of [j] whole pixels
    that holds the text's bits and the terminator, and nothing else. *)
Lemma clean_result_pixels (stego : image) (m : list N) :
  extract_data stego = (Some m, []) ->
  exists j, j <= length (getdata stego) /\ 3 * j = 8 * length m + 104.
Proof.
  rewrite extract_data_decoded.
  destruct (scan_loop_first_match (to_binary STOP_SIGNAL) (getdata stego) [])
    as (j & Hj & E & _).
  simpl in E.
  assert (Hlen : length (scan_loop (to_binary STOP_SIGNAL) (getdata stego) [])
                 = 3 * j).
  { rewrite E, length_lsb_stream, length_take. lia. }
  unfold strip_stop.
  destruct (str_in _ _) eqn:Hin; cbn [fst snd]; intros [= Hdec Hlog].
  apply str_in_spec, occurs_length in Hin.
  rewrite Hlen in Hin. change (length (to_binary STOP_SIGNAL)) with 104 in *.
  apply incomplete_warning_nil in Hlog.
  apply (f_equal length) in Hdec. rewrite length_decoded in Hdec.
  rewrite length_take, Hlen in Hlog, Hdec.
  replace (Init.Nat.min (3 * j - 104) (3 * j)) with (3 * j - 104) in * by lia.
  pose proof (Nat.div_mod_eq (3 * j - 104) 8) as Hdm.
  exists j. split; [exact Hj | lia].
Qed.

End CleanResult.

(** X16. Whatever the image, extraction returns a text without any
    warning only if the text's length is 2 modulo 3, so that its bits and
    the terminator fill whole pixels; a hidden message of another length
    never comes back clean. *)
Theorem clean_result_length (stego : image) (m : list N) :
  extract_data stego = (Some m, []) ->
  length m mod 3 = 2 /\ 8 * length m + 104 <= 3 * length (getdata stego).
Proof.
  intros Hclean.
  destruct (clean_result_pixels stego m Hclean) as (j & Hj & Hpix).
  pose proof (Nat.div_mod_eq (length m) 3) as Hdm.
  pose proof (Nat.mod_upper_bound (length m) 3) as Hr.
  split; lia.
Qed.

Lemma clean_result_length_witness :
  length [104; 105]%N mod 3 = 2
  /\ 8 * length [104; 105]%N + 104 <= 3 * length (getdata stego_hi).
Proof.
  apply (clean_result_length stego_hi [104; 105]%N).
  vm_compute. reflexivity.
Defined.

(** X17. An image of fewer than 35 pixels cannot hold the terminator:
    extraction from it always prints the stop-signal warning and decodes
    every bit of the image. *)
Theorem extract_data_small_image (stego : image) :
  length (getdata stego) < 35 ->
  extract_data stego
  = (Some (decoded (lsb_stream (getdata stego))),
     WarnStopSignal :: incomplete_warning (lsb_stream (getdata stego))).
Proof.
  intros Hsmall.
  assert (Hno : ~ occurs (to_binary STOP_SIGNAL) (lsb_stream (getdata stego))).
  { intros Hocc%occurs_length. rewrite length_lsb_stream in Hocc.
    change (length (to_binary STOP_SIGNAL)) with 104 in Hocc. lia. }
  rewrite extract_data_decoded, (scan_loop_no_stop _ _ Hno).
  by rewrite (strip_stop_absent _ _ Hno).
Qed.

Lemma extract_data_small_image_witness :
  extract_data (Image 2 2 (black 4))
  = (Some (decoded (lsb_stream (black 4))),
     WarnStopSignal :: incomplete_warning (lsb_stream (black 4))).
Proof.
  apply (extract_data_small_image (Image 2 2 (black 4))).
  simpl. lia.
Defined.
